(** * AVLSet: an ordered set backed by an optionally balanced AVL tree

    Shallow embedding of [AVLSet.hpp].  The class template is read at an
    element type with the built-in integer order; elements are modelled as
    [Z] with [<], [==] and [>] as [Z.ltb], [Z.eqb] and [Z.gtb].

    The [int] fields [height] and [_sz] are modelled as [Z].  They count
    nodes on a path and nodes in the tree, so they stay far below [2^31]
    for every tree that fits in memory; no arithmetic on them overflows
    in the executions considered here.

    A [Node*] is either [nullptr] or points to a node that the tree owns
    exclusively, so the pointer graph is a functional tree.  Dereferencing
    [nullptr] is undefined behaviour; every function that can do so
    returns [option], with [None] standing for that fault. *)

From Stdlib Require Import ZArith List Bool Lia Sorted Permutation.
Import ListNotations.
Local Open Scope Z_scope.

(** ** Data model *)

(** [enum Rotation {LL, LR, RL, RR}] *)
Inductive Rotation : Set := LL | LR | RL | RR.

(** [struct Node { Node* left; Node* right; ElementType value; int height; }]
    seen through a [Node*]. *)
Inductive NodePtr : Set :=
| nullptr : NodePtr
| node (left right : NodePtr) (value : Z) (height : Z) : NodePtr.

(** The private members [_root], [_sz], [_shouldBalance]. *)
Record AVLSet : Set := mkAVLSet {
  _root : NodePtr;
  _sz : Z;
  _shouldBalance : bool
}.

(** ** A small error monad for null dereferences *)

Definition bind {A B : Type} (m : option A) (k : A -> option B) : option B :=
  match m with
  | Some a => k a
  | None => None
  end.

Notation "x <- m ;; k" := (bind m (fun x => k))
  (at level 61, m at next level, right associativity).
Notation "' p <- m ;; k" := (bind m (fun x => let p := x in k))
  (at level 61, p pattern, m at next level, right associativity).

(** ** Construction *)

(** [AVLSet(bool shouldBalance)] *)
Definition AVLSet_new (shouldBalance : bool) : AVLSet :=
  mkAVLSet nullptr 0 shouldBalance.

(** ** Heights and rotations *)

(** [getHeight(Node* t)] *)
Definition getHeight (t : NodePtr) : Z :=
  match t with
  | nullptr => -1
  | node _ _ _ h => h
  end.

(** [getNeededRotation(t, element)]: reads [t->value] and the value of one
    child of [t]. *)
Definition getNeededRotation (t : NodePtr) (element : Z) : option Rotation :=
  match t with
  | nullptr => None
  | node l r v _ =>
      if element <? v then
        match l with
        | nullptr => None
        | node _ _ lv _ => Some (if element <? lv then LL else LR)
        end
      else
        match r with
        | nullptr => None
        | node _ _ rv _ => Some (if element <? rv then RL else RR)
        end
  end.

(** [rotLL(t)] *)
Definition rotLL (t : NodePtr) : option NodePtr :=
  match t with
  | node (node al t2 av _) tr tv _ =>
      let t' := node t2 tr tv (1 + Z.max (getHeight t2) (getHeight tr)) in
      Some (node al t' av (1 + Z.max (getHeight al) (getHeight t')))
  | _ => None
  end.

(** [rotLR(t)] *)
Definition rotLR (t : NodePtr) : option NodePtr :=
  match t with
  | node (node al (node t2 t3 bv _) av _) tr tv _ =>
      let a' := node al t2 av (1 + Z.max (getHeight al) (getHeight t2)) in
      let t' := node t3 tr tv (1 + Z.max (getHeight t3) (getHeight tr)) in
      Some (node a' t' bv (1 + Z.max (getHeight a') (getHeight t')))
  | _ => None
  end.

(** [rotRL(t)] *)
Definition rotRL (t : NodePtr) : option NodePtr :=
  match t with
  | node tl (node (node t2 t3 bv _) cr cv _) tv _ =>
      let t' := node tl t2 tv (1 + Z.max (getHeight tl) (getHeight t2)) in
      let c' := node t3 cr cv (1 + Z.max (getHeight t3) (getHeight cr)) in
      Some (node t' c' bv (1 + Z.max (getHeight t') (getHeight c')))
  | _ => None
  end.

(** [rotRR(t)] *)
Definition rotRR (t : NodePtr) : option NodePtr :=
  match t with
  | node tl (node t2 br bv _) tv _ =>
      let t' := node tl t2 tv (1 + Z.max (getHeight tl) (getHeight t2)) in
      Some (node t' br bv (1 + Z.max (getHeight t') (getHeight br)))
  | _ => None
  end.

(** [rotate(t, r)] *)
Definition rotate (t : NodePtr) (r : Rotation) : option NodePtr :=
  match r with
  | LL => rotLL t
  | LR => rotLR t
  | RL => rotRL t
  | RR => rotRR t
  end.

(** ** Insertion *)

(** The tail of [addR], run after the recursive call has relinked one
    child of [t]: the guarded height update and rotation, with [t] given
    by its fields.  [exists_] is the [bool&] out-parameter. *)
Definition addR_unwind (shouldBalance : bool) (l r : NodePtr) (v h : Z)
    (element : Z) (exists_ : bool) : option (NodePtr * bool) :=
  if negb exists_ then
    let newHeight := 1 + Z.max (getHeight l) (getHeight r) in
    let h' := if newHeight >? h then h + 1 else h in
    let t := node l r v h' in
    if (Z.abs (getHeight l - getHeight r) >? 1) && shouldBalance then
      rot <- getNeededRotation t element ;;
      t' <- rotate t rot ;;
      Some (t', exists_)
    else Some (t, exists_)
  else Some (node l r v h, exists_).

(** [addR(t, element, exists)] *)
Fixpoint addR (shouldBalance : bool) (t : NodePtr) (element : Z)
    (exists_ : bool) : option (NodePtr * bool) :=
  match t with
  | nullptr => Some (node nullptr nullptr element 0, exists_)
  | node l r v h =>
      if v =? element then Some (t, true)
      else if element <? v then
        '(l', ex) <- addR shouldBalance l element exists_ ;;
        addR_unwind shouldBalance l' r v h element ex
      else
        '(r', ex) <- addR shouldBalance r element exists_ ;;
        addR_unwind shouldBalance l r' v h element ex
  end.

(** [add(element)] *)
Definition add (s : AVLSet) (element : Z) : option AVLSet :=
  '(t, ex) <- addR (_shouldBalance s) (_root s) element false ;;
  Some (mkAVLSet t (if negb ex then _sz s + 1 else _sz s) (_shouldBalance s)).

(** ** Queries *)

(** The [while (cur != nullptr)] loop of [contains], started at [cur]. *)
Fixpoint contains_from (cur : NodePtr) (element : Z) : bool :=
  match cur with
  | nullptr => false
  | node l r v _ =>
      if v =? element then true
      else if element >? v then contains_from r element
      else contains_from l element
  end.

(** [contains(element)] *)
Definition contains (s : AVLSet) (element : Z) : bool :=
  contains_from (_root s) element.

(** [size()] *)
Definition size (s : AVLSet) : Z := _sz s.

(** [height()] *)
Definition height (s : AVLSet) : Z := getHeight (_root s).

(** ** Traversals

    A traversal is modelled by the sequence of arguments with which it
    calls the visitor. *)

(** [preorderR(visit, t)]: reads [t->value] first, without a null test. *)
Fixpoint preorderR (t : NodePtr) : option (list Z) :=
  match t with
  | nullptr => None
  | node l r v _ =>
      ls <- match l with nullptr => Some [] | node _ _ _ _ => preorderR l end ;;
      rs <- match r with nullptr => Some [] | node _ _ _ _ => preorderR r end ;;
      Some (v :: ls ++ rs)
  end.

(** [preorder(visit)] *)
Definition preorder (s : AVLSet) : option (list Z) := preorderR (_root s).

(** [inorderR(visit, t)] *)
Fixpoint inorderR (t : NodePtr) : list Z :=
  match t with
  | nullptr => []
  | node l r v _ => inorderR l ++ v :: inorderR r
  end.

(** [inorder(visit)]; it cannot fault, the result is wrapped so the three
    traversals have one type. *)
Definition inorder (s : AVLSet) : option (list Z) := Some (inorderR (_root s)).

(** [postorderR(visit, t)]: reads [t->left] first, without a null test. *)
Fixpoint postorderR (t : NodePtr) : option (list Z) :=
  match t with
  | nullptr => None
  | node l r v _ =>
      ls <- match l with nullptr => Some [] | node _ _ _ _ => postorderR l end ;;
      rs <- match r with nullptr => Some [] | node _ _ _ _ => postorderR r end ;;
      Some (ls ++ rs ++ [v])
  end.

(** [postorder(visit)] *)
Definition postorder (s : AVLSet) : option (list Z) := postorderR (_root s).

(** ** Moves

    Both moves act on two objects; the result is the pair
    (destination, source) after the call. *)

Definition swap {A : Type} (p : A * A) : A * A := (snd p, fst p).

(** The three [std::swap] calls shared by both moves. *)
Definition swap_members (this s : AVLSet) : AVLSet * AVLSet :=
  let '(r1, r2) := swap (_root this, _root s) in
  let '(z1, z2) := swap (_sz this, _sz s) in
  let '(b1, b2) := swap (_shouldBalance this, _shouldBalance s) in
  (mkAVLSet r1 z1 b1, mkAVLSet r2 z2 b2).

(** [AVLSet(AVLSet&& s)]: the new object starts as
    [_root{nullptr}, _sz{0}, _shouldBalance{false}]. *)
Definition move_construct (s : AVLSet) : AVLSet * AVLSet :=
  swap_members (mkAVLSet nullptr 0 false) s.

(** [operator=(AVLSet&& s)] on two distinct objects. *)
Definition move_assign (this s : AVLSet) : AVLSet * AVLSet :=
  swap_members this s.

(** ** Sequences of [add] calls *)

(** The state after calling [add] on [s] with each element of [xs] in turn. *)
Fixpoint add_all (s : AVLSet) (xs : list Z) : option AVLSet :=
  match xs with
  | [] => Some s
  | x :: xs' => s' <- add s x ;; add_all s' xs'
  end.

(** A fresh set followed by the [add] calls [xs]. *)
Definition run (shouldBalance : bool) (xs : list Z) : option AVLSet :=
  add_all (AVLSet_new shouldBalance) xs.

(** ** Invariants *)

(** The height of a subtree as the spec defines it: recomputed from the
    shape, with an absent subtree at -1. *)
Fixpoint tree_height (t : NodePtr) : Z :=
  match t with
  | nullptr => -1
  | node l r _ _ => 1 + Z.max (tree_height l) (tree_height r)
  end.

(** Every cached [height] field agrees with the heights of the children. *)
Fixpoint heights_correct (t : NodePtr) : Prop :=
  match t with
  | nullptr => True
  | node l r _ h =>
      heights_correct l /\ heights_correct r /\
      h = 1 + Z.max (tree_height l) (tree_height r)
  end.

(** The same, read through [getHeight] as the code does. *)
Fixpoint heights_cached (t : NodePtr) : Prop :=
  match t with
  | nullptr => True
  | node l r _ h =>
      heights_cached l /\ heights_cached r /\
      h = 1 + Z.max (getHeight l) (getHeight r)
  end.

(** The AVL condition at every node, on recomputed heights. *)
Fixpoint balanced (t : NodePtr) : Prop :=
  match t with
  | nullptr => True
  | node l r _ _ =>
      balanced l /\ balanced r /\ Z.abs (tree_height l - tree_height r) <= 1
  end.

(** The AVL condition at every node, on cached heights. *)
Fixpoint balanced_cached (t : NodePtr) : Prop :=
  match t with
  | nullptr => True
  | node l r _ _ =>
      balanced_cached l /\ balanced_cached r /\
      Z.abs (getHeight l - getHeight r) <= 1
  end.

(** Binary-search-tree order: the inorder sequence strictly increases. *)
Definition bst (t : NodePtr) : Prop := StronglySorted Z.lt (inorderR t).

(** What [addR] maintains; balance only when rotations are enabled. *)
Definition inv (shouldBalance : bool) (t : NodePtr) : Prop :=
  bst t /\ heights_cached t /\ (shouldBalance = true -> balanced_cached t).

(** When an insertion below a balanced node makes it taller, its root stays
    and the side that received the element is taller by exactly one. *)
Definition grow (t t' : NodePtr) (element : Z) : Prop :=
  getHeight t' = getHeight t + 1 ->
  match t, t' with
  | nullptr, _ => True
  | node _ _ v _, node l' r' v' _ =>
      v' = v /\
      (element < v -> getHeight l' = getHeight r' + 1) /\
      (v < element -> getHeight r' = getHeight l' + 1)
  | node _ _ _ _, nullptr => False
  end.

(** The right-leaning chain that ascending insertions build without
    balancing. *)
Fixpoint chain (xs : list Z) : NodePtr :=
  match xs with
  | [] => nullptr
  | x :: xs' => node nullptr (chain xs') x (Z.of_nat (length xs'))
  end.

(** Insertion into a plain binary search tree as the spec words it: descend
    by comparison, allocate a leaf at an absent child, recompute heights on
    the way back, never rotate. *)
Fixpoint bst_insert (t : NodePtr) (element : Z) : NodePtr :=
  match t with
  | nullptr => node nullptr nullptr element 0
  | node l r v h =>
      if v =? element then t
      else if element <? v then
        let l' := bst_insert l element in
        node l' r v (1 + Z.max (getHeight l') (getHeight r))
      else
        let r' := bst_insert r element in
        node l r' v (1 + Z.max (getHeight l) (getHeight r'))
  end.

(** What the recursive call establishes about the child it relinked, when
    the element was new. *)
Record inserted (sb : bool) (t t' : NodePtr) (e : Z) : Prop := {
  ins_fresh : ~ In e (inorderR t);
  ins_inv : inv sb t';
  ins_elems : forall x, In x (inorderR t') <-> x = e \/ In x (inorderR t);
  ins_height : getHeight t <= getHeight t' <= getHeight t + 1;
  ins_grow : sb = true -> grow t t' e
}.

(** The state of a set whose [add] calls so far received [xs]. *)
Record set_inv (s : AVLSet) (xs : list Z) : Prop := {
  si_tree : inv (_shouldBalance s) (_root s);
  si_elems : forall x, In x (inorderR (_root s)) <-> In x xs;
  si_size : _sz s = Z.of_nat (length (inorderR (_root s)))
}.

(** A destination holding one element and a source holding two, as the
    [add] calls build them. *)
Definition one_element_set : AVLSet :=
  mkAVLSet (node nullptr nullptr 1 0) 1 true.

Definition two_element_set : AVLSet :=
  mkAVLSet (node nullptr (node nullptr nullptr 3 0) 2 1) 2 true.

(** ** Copy and destruction *)

(** [copyTree(t)]: one new node per node of [t], with its value and its
    cached height, and the copies of its children. *)
Fixpoint copyTree (t : NodePtr) : NodePtr :=
  match t with
  | nullptr => nullptr
  | node l r v h => node (copyTree l) (copyTree r) v h
  end.

(** [deleteTree(t)], modelled by the sequence of its [delete] statements,
    each node named by its value. *)
Fixpoint deleteTree (t : NodePtr) : list Z :=
  match t with
  | nullptr => []
  | node l r v _ =>
      (match l with nullptr => [] | node _ _ _ _ => deleteTree l end) ++
      (match r with nullptr => [] | node _ _ _ _ => deleteTree r end) ++ [v]
  end.

(** [~AVLSet()] *)
Definition AVLSet_destroy (s : AVLSet) : list Z := deleteTree (_root s).

(** [AVLSet(const AVLSet& s)]: the new object. *)
Definition copy_construct (s : AVLSet) : AVLSet :=
  mkAVLSet (copyTree (_root s)) (_sz s) (_shouldBalance s).

(** [operator=(const AVLSet& s)] on two distinct objects: the nodes it
    deletes and the destination after the call. *)
Definition copy_assign (this s : AVLSet) : list Z * AVLSet :=
  (deleteTree (_root this),
   mkAVLSet (copyTree (_root s)) (_sz s) (_shouldBalance s)).

(** ** Traversal orders as lists

    The three orders on a tree, total; used to say what the traversals
    visit when they do not fault. *)

Fixpoint preorder_list (t : NodePtr) : list Z :=
  match t with
  | nullptr => []
  | node l r v _ => v :: preorder_list l ++ preorder_list r
  end.

Fixpoint postorder_list (t : NodePtr) : list Z :=
  match t with
  | nullptr => []
  | node l r v _ => postorder_list l ++ postorder_list r ++ [v]
  end.

(** A left-heavy node of three elements, on which every lemma about a
    single rotation can be tried. *)
Definition left_heavy_tree : NodePtr :=
  node (node (node nullptr nullptr 1 0) nullptr 2 1) nullptr 3 2.

(** * Proofs *)

(** Arithmetic stays folded under [simpl], so that [lia] sees it. *)
#[local] Arguments Z.add : simpl never.
#[local] Arguments Z.sub : simpl never.
#[local] Arguments Z.max : simpl never.
#[local] Arguments Z.abs : simpl never.
#[local] Arguments Z.ltb : simpl never.
#[local] Arguments Z.gtb : simpl never.
#[local] Arguments Z.eqb : simpl never.
#[local] Arguments Z.of_nat : simpl never.

(** ** Sorted lists *)

Lemma sorted_app (l1 l2 : list Z) (x : Z) :
  StronglySorted Z.lt (l1 ++ x :: l2) <->
  StronglySorted Z.lt l1 /\ StronglySorted Z.lt l2 /\
  (forall y, In y l1 -> y < x) /\ (forall y, In y l2 -> x < y).
Proof.
  induction l1 as [|a l1 IH]; simpl.
  - split.
    + intros H. inversion H as [|? ? Hs Hf]; subst.
      rewrite Forall_forall in Hf.
      repeat split; auto; [constructor | intros ? []].
    + intros (_ & Hs & _ & Hf). constructor; auto.
      apply Forall_forall; auto.
  - split.
    + intros H. inversion H as [|? ? Hs Hf]; subst.
      apply IH in Hs. destruct Hs as (S1 & S2 & L1 & L2).
      rewrite Forall_forall in Hf.
      repeat split; auto.
      * constructor; auto. apply Forall_forall. intros y Hy.
        apply Hf, in_or_app; auto.
      * intros y [->|Hy]; auto. apply Hf, in_or_app; simpl; auto.
    + intros (S1 & S2 & L1 & L2).
      inversion S1 as [|? ? Hs Hf]; subst.
      rewrite Forall_forall in Hf.
      constructor.
      * apply IH; repeat split; auto.
      * apply Forall_forall. intros y Hy.
        pose proof (L1 a (or_introl eq_refl)) as Ha.
        apply in_app_or in Hy. destruct Hy as [Hy|[<-|Hy]]; auto.
        specialize (L2 y Hy). lia.
Qed.

Lemma sorted_NoDup (l : list Z) : StronglySorted Z.lt l -> NoDup l.
Proof.
  induction 1 as [|a l Hs IH Hf]; constructor; auto.
  intros Hin. rewrite Forall_forall in Hf. specialize (Hf a Hin). lia.
Qed.

(** ** Heights *)

Lemma heights_cached_lower (t : NodePtr) : heights_cached t -> -1 <= getHeight t.
Proof.
  induction t as [|l IHl r IHr v h]; simpl; [lia|].
  intros (Hl & Hr & ->). specialize (IHl Hl). lia.
Qed.

Lemma heights_cached_tree_height (t : NodePtr) :
  heights_cached t -> getHeight t = tree_height t.
Proof.
  induction t as [|l IHl r IHr v h]; simpl; auto.
  intros (Hl & Hr & ->). rewrite IHl, IHr; auto.
Qed.

Lemma heights_cached_correct (t : NodePtr) : heights_cached t -> heights_correct t.
Proof.
  induction t as [|l IHl r IHr v h]; simpl; auto.
  intros (Hl & Hr & ->).
  rewrite <- !heights_cached_tree_height; auto.
Qed.

Lemma balanced_cached_balanced (t : NodePtr) :
  heights_cached t -> balanced_cached t -> balanced t.
Proof.
  induction t as [|l IHl r IHr v h]; simpl; auto.
  intros (Hl & Hr & _) (Bl & Br & B).
  rewrite <- !heights_cached_tree_height; auto.
Qed.

(** ** One step of unwinding *)

Ltac split_all := repeat match goal with |- _ /\ _ => split end.

Ltac list_assoc := simpl; repeat (rewrite <- app_assoc; simpl); reflexivity.

Ltac finish :=
  simpl in *; split_all; auto; try lia; try list_assoc;
  unfold grow; simpl; intros; split_all; auto; lia.

(** The shape and height part of a step, insertion on the left. *)
Lemma unwind_left_core (sb : bool) (l l' r : NodePtr) (v h e : Z) :
  heights_cached l' -> heights_cached r -> -1 <= getHeight l ->
  h = 1 + Z.max (getHeight l) (getHeight r) ->
  getHeight l <= getHeight l' <= getHeight l + 1 ->
  (sb = true ->
   balanced_cached l' /\ balanced_cached r /\
   Z.abs (getHeight l - getHeight r) <= 1 /\ grow l l' e) ->
  match l with node _ _ lv _ => lv <> e | nullptr => True end ->
  e < v ->
  exists t',
    addR_unwind sb l' r v h e false = Some (t', false) /\
    inorderR t' = inorderR l' ++ v :: inorderR r /\
    heights_cached t' /\
    (sb = true -> balanced_cached t') /\
    h <= getHeight t' <= h + 1 /\
    (sb = true -> grow (node l r v h) t' e).
Proof.
  intros Hl' Hr Hlow Hh Hrange Hbal Hroot Hlt.
  pose proof (heights_cached_lower _ Hr) as Hrlow.
  unfold addR_unwind; simpl negb; cbv iota zeta.
  destruct (Z.gtb_spec (Z.abs (getHeight l' - getHeight r)) 1) as [Hun|Hok];
    [destruct sb|]; simpl andb; cbv iota.
  - (* unbalanced and balancing enabled: rotate *)
    destruct (Hbal eq_refl) as (Bl' & Br & B & G). clear Hbal.
    assert (getHeight l' = getHeight l + 1) as Hg by lia.
    assert (getHeight l = getHeight r + 1) as Hd by lia.
    specialize (G Hg).
    destruct l as [|l0 r0 lv lh]; [simpl in *; lia|].
    destruct l' as [|ll lr lv' lh']; [contradiction|].
    destruct G as (-> & GL & GR).
    simpl in Hl', Bl', Hg, Hd, Hlow, Hrange, GL, GR.
    destruct Hl' as (Hll & Hlr & ->). destruct Bl' as (Bll & Blr & Bl').
    pose proof (heights_cached_lower _ Hll) as Hlllow.
    unfold getNeededRotation.
    destruct (Z.ltb_spec e v) as [_|?]; [|lia].
    destruct (Z.ltb_spec e lv) as [Helv|Helv]; simpl bind.
    + (* LL *)
      eexists; split; [reflexivity|].
      finish.
    + (* LR *)
      assert (lv < e) as Hlve by lia.
      destruct lr as [|t2 t3 bv bh]; [simpl in *; lia|].
      simpl in Hlr, Blr. destruct Hlr as (H2 & H3 & ->).
      destruct Blr as (B2 & B3 & Bb).
      eexists; split; [reflexivity|].
      finish.
  - (* unbalanced, balancing disabled *)
    eexists; split; [reflexivity|].
    simpl.
    destruct (Z.gtb_spec (1 + Z.max (getHeight l') (getHeight r)) h);
      split_all; auto; try lia; discriminate.
  - (* no imbalance *)
    replace ((Z.abs (getHeight l' - getHeight r) >? 1) && sb) with false
      by (destruct (Z.gtb_spec (Z.abs (getHeight l' - getHeight r)) 1);
          [lia | reflexivity]).
    eexists; split; [reflexivity|].
    simpl.
    destruct (Z.gtb_spec (1 + Z.max (getHeight l') (getHeight r)) h);
      split_all; auto; try lia;
      try (intros Hsb; destruct (Hbal Hsb) as (? & ? & ? & ?); split_all; auto; lia);
      intros Hsb Hgrow; simpl in Hgrow; split_all; auto; lia.
Qed.

(** The shape and height part of a step, insertion on the right. *)
Lemma unwind_right_core (sb : bool) (l r r' : NodePtr) (v h e : Z) :
  heights_cached l -> heights_cached r' -> -1 <= getHeight r ->
  h = 1 + Z.max (getHeight l) (getHeight r) ->
  getHeight r <= getHeight r' <= getHeight r + 1 ->
  (sb = true ->
   balanced_cached l /\ balanced_cached r' /\
   Z.abs (getHeight l - getHeight r) <= 1 /\ grow r r' e) ->
  match r with node _ _ rv _ => rv <> e | nullptr => True end ->
  v < e ->
  exists t',
    addR_unwind sb l r' v h e false = Some (t', false) /\
    inorderR t' = inorderR l ++ v :: inorderR r' /\
    heights_cached t' /\
    (sb = true -> balanced_cached t') /\
    h <= getHeight t' <= h + 1 /\
    (sb = true -> grow (node l r v h) t' e).
Proof.
  intros Hl Hr' Hlow Hh Hrange Hbal Hroot Hlt.
  pose proof (heights_cached_lower _ Hl) as Hllow.
  unfold addR_unwind; simpl negb; cbv iota zeta.
  destruct (Z.gtb_spec (Z.abs (getHeight l - getHeight r')) 1) as [Hun|Hok];
    [destruct sb|]; simpl andb; cbv iota.
  - (* unbalanced and balancing enabled: rotate *)
    destruct (Hbal eq_refl) as (Bl & Br' & B & G). clear Hbal.
    assert (getHeight r' = getHeight r + 1) as Hg by lia.
    assert (getHeight r = getHeight l + 1) as Hd by lia.
    specialize (G Hg).
    destruct r as [|l0 r0 rv rh]; [simpl in *; lia|].
    destruct r' as [|rl rr rv' rh']; [contradiction|].
    destruct G as (-> & GL & GR).
    simpl in Hr', Br', Hg, Hd, Hlow, Hrange, GL, GR.
    destruct Hr' as (Hrl & Hrr & ->). destruct Br' as (Brl & Brr & Br').
    pose proof (heights_cached_lower _ Hrr) as Hrrlow.
    unfold getNeededRotation.
    destruct (Z.ltb_spec e v) as [?|_]; [lia|].
    destruct (Z.ltb_spec e rv) as [Herv|Herv]; simpl bind.
    + (* RL *)
      destruct rl as [|t2 t3 bv bh]; [simpl in *; lia|].
      simpl in Hrl, Brl. destruct Hrl as (H2 & H3 & ->).
      destruct Brl as (B2 & B3 & Bb).
      eexists; split; [reflexivity|].
      finish.
    + (* RR *)
      assert (rv < e) as Hrve by lia.
      eexists; split; [reflexivity|].
      finish.
  - (* unbalanced, balancing disabled *)
    eexists; split; [reflexivity|].
    simpl.
    destruct (Z.gtb_spec (1 + Z.max (getHeight l) (getHeight r')) h);
      split_all; auto; try lia; discriminate.
  - (* no imbalance *)
    replace ((Z.abs (getHeight l - getHeight r') >? 1) && sb) with false
      by (destruct (Z.gtb_spec (Z.abs (getHeight l - getHeight r')) 1);
          [lia | reflexivity]).
    eexists; split; [reflexivity|].
    simpl.
    destruct (Z.gtb_spec (1 + Z.max (getHeight l) (getHeight r')) h);
      split_all; auto; try lia;
      try (intros Hsb; destruct (Hbal Hsb) as (? & ? & ? & ?); split_all; auto; lia);
      intros Hsb Hgrow; simpl in Hgrow; split_all; auto; lia.
Qed.

(** ** [addR] maintains the invariant *)

Lemma inv_node (sb : bool) (l r : NodePtr) (v h : Z) :
  inv sb (node l r v h) <->
  inv sb l /\ inv sb r /\
  (forall y, In y (inorderR l) -> y < v) /\
  (forall y, In y (inorderR r) -> v < y) /\
  h = 1 + Z.max (getHeight l) (getHeight r) /\
  (sb = true -> Z.abs (getHeight l - getHeight r) <= 1).
Proof.
  unfold inv, bst; simpl. rewrite sorted_app. intuition.
Qed.

Lemma inv_nullptr (sb : bool) : inv sb nullptr.
Proof. unfold inv, bst; simpl. repeat split; auto. constructor. Qed.

Lemma root_in_inorderR (l r : NodePtr) (v h : Z) : In v (inorderR (node l r v h)).
Proof. simpl. apply in_or_app. simpl. auto. Qed.

Lemma root_fresh (t : NodePtr) (e : Z) :
  ~ In e (inorderR t) ->
  match t with node _ _ v _ => v <> e | nullptr => True end.
Proof.
  destruct t as [|l r v h]; auto.
  intros Hn ->. apply Hn, root_in_inorderR.
Qed.

(** [addR], entered with [exists == false], either finds the element and
    returns the subtree as it was with [exists] set, or returns a subtree
    with the element inserted and [exists] still clear.  It never
    dereferences a null pointer. *)
Lemma addR_correct (sb : bool) (t : NodePtr) (e : Z) :
  inv sb t ->
  (In e (inorderR t) /\ addR sb t e false = Some (t, true)) \/
  (exists t', addR sb t e false = Some (t', false) /\ inserted sb t t' e).
Proof.
  induction t as [|l IHl r IHr v h]; intros Hinv.
  - right. eexists; split; [reflexivity|].
    constructor; simpl; try tauto; try lia.
    + apply inv_node. split_all; auto using inv_nullptr; simpl; try tauto.
      intros _; lia.
    + intros _ _. exact I.
  - apply inv_node in Hinv.
    destruct Hinv as (Il & Ir & Ll & Lr & Hh & Hb).
    simpl addR.
    destruct (Z.eqb_spec v e) as [->|Hne].
    { left. split; [apply root_in_inorderR | reflexivity]. }
    destruct (Z.ltb_spec e v) as [Hlt|Hge].
    + (* descend left *)
      destruct (IHl Il) as [(Hin & ->)|(l' & -> & Hins)]; simpl bind.
      { left. split; [simpl; apply in_or_app; auto | reflexivity]. }
      right. destruct Hins as [Hf Hi He Hhr Hg].
      destruct Il as (_ & Hcl & _). destruct Ir as (Sr & Hcr & Br).
      destruct Hi as (Sl' & Hcl' & Bl').
      assert (sb = true ->
              balanced_cached l' /\ balanced_cached r /\
              Z.abs (getHeight l - getHeight r) <= 1 /\ grow l l' e) as Hbalp
        by (intros Hsb; split_all; auto).
      destruct (unwind_left_core sb l l' r v h e Hcl' Hcr
                  (heights_cached_lower _ Hcl) Hh Hhr Hbalp
                  (root_fresh _ _ Hf) Hlt)
        as (t' & Hrun & Hio & Hc' & Hb' & Hh' & Hg').
      exists t'. split; [exact Hrun|].
      assert (forall x, In x (inorderR t') <->
                        x = e \/ In x (inorderR (node l r v h))) as Hel.
      { intros x. rewrite Hio. simpl. rewrite !in_app_iff. simpl.
        rewrite He. tauto. }
      constructor; auto.
      * simpl. rewrite in_app_iff. simpl.
        intros [H|[H|H]]; [tauto | lia | specialize (Lr _ H); lia].
      * unfold inv; split_all; auto. unfold bst. rewrite Hio. apply sorted_app.
        split_all; auto. intros y Hy. apply He in Hy.
        destruct Hy as [->|Hy]; auto.
    + (* descend right *)
      assert (v < e) as Hlt by lia.
      destruct (IHr Ir) as [(Hin & ->)|(r' & -> & Hins)]; simpl bind.
      { left. split; [simpl; apply in_or_app; simpl; auto | reflexivity]. }
      right. destruct Hins as [Hf Hi He Hhr Hg].
      destruct Ir as (_ & Hcr & _). destruct Il as (Sl & Hcl & Bl).
      destruct Hi as (Sr' & Hcr' & Br').
      assert (sb = true ->
              balanced_cached l /\ balanced_cached r' /\
              Z.abs (getHeight l - getHeight r) <= 1 /\ grow r r' e) as Hbalp
        by (intros Hsb; split_all; auto).
      destruct (unwind_right_core sb l r r' v h e Hcl Hcr'
                  (heights_cached_lower _ Hcr) Hh Hhr Hbalp
                  (root_fresh _ _ Hf) Hlt)
        as (t' & Hrun & Hio & Hc' & Hb' & Hh' & Hg').
      exists t'. split; [exact Hrun|].
      assert (forall x, In x (inorderR t') <->
                        x = e \/ In x (inorderR (node l r v h))) as Hel.
      { intros x. rewrite Hio. simpl. rewrite !in_app_iff. simpl.
        rewrite He. tauto. }
      constructor; auto.
      * simpl. rewrite in_app_iff. simpl.
        intros [H|[H|H]]; [specialize (Ll _ H); lia | lia | tauto].
      * unfold inv; split_all; auto. unfold bst. rewrite Hio. apply sorted_app.
        split_all; auto. intros y Hy. apply He in Hy.
        destruct Hy as [->|Hy]; auto.
Qed.

(** ** Lookup *)

Lemma contains_from_correct (t : NodePtr) (x : Z) :
  bst t -> (contains_from t x = true <-> In x (inorderR t)).
Proof.
  unfold bst.
  induction t as [|l IHl r IHr v h]; simpl; intros Hs.
  - split; [discriminate | contradiction].
  - apply sorted_app in Hs. destruct Hs as (Sl & Sr & Ll & Lr).
    rewrite in_app_iff; simpl.
    destruct (Z.eqb_spec v x) as [->|Hne]; [tauto|].
    destruct (Z.gtb_spec x v) as [Hgt|Hle].
    + rewrite (IHr Sr). split; auto.
      intros [H|[H|H]]; auto; [specialize (Ll _ H); lia | contradiction].
    + rewrite (IHl Sl). split; auto.
      intros [H|[H|H]]; auto; [contradiction | specialize (Lr _ H); lia].
Qed.

(** ** The set as a whole *)

Lemma set_inv_new (sb : bool) : set_inv (AVLSet_new sb) [].
Proof. constructor; simpl; [apply inv_nullptr | tauto | reflexivity]. Qed.

Lemma inserted_length (sb : bool) (t t' : NodePtr) (e : Z) :
  inv sb t -> inserted sb t t' e ->
  length (inorderR t') = S (length (inorderR t)).
Proof.
  intros (St & _) [Hf (St' & _) He _ _].
  change (S (length (inorderR t))) with (length (e :: inorderR t)).
  apply Permutation_length, NoDup_Permutation.
  - apply sorted_NoDup, St'.
  - constructor; [exact Hf | apply sorted_NoDup, St].
  - intros x. rewrite He. simpl. intuition.
Qed.

(** [add] on an element that is stored returns the state it was given. *)
Lemma add_present (s : AVLSet) (xs : list Z) (e : Z) :
  set_inv s xs -> In e (inorderR (_root s)) -> add s e = Some s.
Proof.
  intros [Ht He Hz] Hin. unfold add.
  destruct (addR_correct _ _ e Ht) as [(_ & ->)|(t' & _ & [Hf _ _ _ _])];
    [|contradiction].
  destruct s; reflexivity.
Qed.

(** [add] never faults and keeps the set invariant. *)
Lemma add_correct (s : AVLSet) (xs : list Z) (e : Z) :
  set_inv s xs ->
  exists s',
    add s e = Some s' /\ _shouldBalance s' = _shouldBalance s /\
    set_inv s' (xs ++ [e]).
Proof.
  intros Hs. pose proof Hs as [Ht He Hz]. unfold add.
  destruct (addR_correct _ _ e Ht) as [(Hin & ->)|(t' & -> & Hins)]; simpl bind.
  - eexists; split; [reflexivity|]. split; [reflexivity|].
    constructor; simpl; auto.
    intros x. rewrite in_app_iff, He. simpl. split; [tauto|].
    intros [H|[<-|[]]]; auto. apply He, Hin.
  - eexists; split; [reflexivity|]. split; [reflexivity|].
    constructor; simpl.
    + apply Hins.
    + intros x. rewrite in_app_iff, (ins_elems _ _ _ _ Hins), He. simpl.
      intuition.
    + rewrite (inserted_length _ _ _ _ Ht Hins), Hz. lia.
Qed.

Lemma add_all_correct (xs : list Z) :
  forall (s : AVLSet) (acc : list Z),
    set_inv s acc ->
    exists s',
      add_all s xs = Some s' /\ _shouldBalance s' = _shouldBalance s /\
      set_inv s' (acc ++ xs).
Proof.
  induction xs as [|x xs IH]; intros s acc Hs; simpl.
  - exists s. rewrite app_nil_r. auto.
  - destruct (add_correct s acc x Hs) as (s1 & -> & Hb1 & H1); simpl bind.
    destruct (IH s1 (acc ++ [x]) H1) as (s' & Hrun & Hb & H').
    exists s'. rewrite <- app_assoc in H'. simpl in H'.
    split_all; auto; congruence.
Qed.

(** Every sequence of [add] calls on a fresh set runs without a fault and
    ends in a state that satisfies the invariant. *)
Lemma run_correct (sb : bool) (xs : list Z) :
  exists s, run sb xs = Some s /\ _shouldBalance s = sb /\ set_inv s xs.
Proof.
  destruct (add_all_correct xs (AVLSet_new sb) [] (set_inv_new sb))
    as (s & Hrun & Hb & Hs).
  exists s. auto.
Qed.

(** ** Ascending insertions without balancing *)

Lemma getHeight_chain (xs : list Z) :
  getHeight (chain xs) = Z.of_nat (length xs) - 1.
Proof. destruct xs; simpl; lia. Qed.

Lemma addR_chain (xs : list Z) (e : Z) :
  (forall x, In x xs -> x < e) ->
  addR false (chain xs) e false = Some (chain (xs ++ [e]), false).
Proof.
  induction xs as [|x xs IH]; intros Hlt; simpl; auto.
  pose proof (Hlt x (or_introl eq_refl)) as Hx.
  destruct (Z.eqb_spec x e) as [?|_]; [lia|].
  destruct (Z.ltb_spec e x) as [?|_]; [lia|].
  rewrite IH by (intros y Hy; apply Hlt; simpl; auto). simpl bind.
  unfold addR_unwind. simpl negb. cbv iota zeta.
  rewrite andb_false_r.
  rewrite getHeight_chain. simpl getHeight.
  rewrite length_app. simpl length.
  destruct (Z.gtb_spec (1 + Z.max (-1) (Z.of_nat (length xs + 1) - 1))
              (Z.of_nat (length xs))) as [_|?]; [|lia].
  do 3 f_equal. lia.
Qed.

Lemma add_all_chain (xs : list Z) :
  forall acc,
    StronglySorted Z.lt (acc ++ xs) ->
    add_all (mkAVLSet (chain acc) (Z.of_nat (length acc)) false) xs =
    Some (mkAVLSet (chain (acc ++ xs)) (Z.of_nat (length (acc ++ xs))) false).
Proof.
  induction xs as [|x xs IH]; intros acc Hs; simpl.
  - rewrite app_nil_r. reflexivity.
  - unfold add. simpl _root. simpl _shouldBalance. simpl _sz.
    rewrite addR_chain.
    + simpl bind.
      replace (Z.of_nat (length acc) + 1) with (Z.of_nat (length (acc ++ [x])))
        by (rewrite length_app; simpl; lia).
      replace (acc ++ x :: xs) with ((acc ++ [x]) ++ xs) in *
        by (rewrite <- app_assoc; reflexivity).
      apply IH, Hs.
    + apply sorted_app in Hs. apply Hs.
Qed.

(** ** Insertion without balancing is plain search-tree insertion *)

Lemma addR_false_bst_insert (t : NodePtr) (e : Z) :
  heights_cached t ->
  exists ex,
    addR false t e false = Some (bst_insert t e, ex) /\
    heights_cached (bst_insert t e) /\
    getHeight t <= getHeight (bst_insert t e) <= getHeight t + 1 /\
    (ex = true -> bst_insert t e = t).
Proof.
  induction t as [|l IHl r IHr v h]; simpl; intros Hc.
  - exists false. split_all; auto; lia.
  - destruct Hc as (Hl & Hr & Hh).
    destruct (Z.eqb_spec v e) as [_|_].
    { exists true. simpl. split_all; auto; lia. }
    destruct (Z.ltb_spec e v) as [_|_].
    + destruct (IHl Hl) as (ex & -> & Hc' & Hr' & Hsame). simpl bind.
      exists ex. unfold addR_unwind.
      destruct ex; simpl negb; cbv iota zeta.
      * rewrite (Hsame eq_refl). rewrite <- Hh.
        simpl. split_all; auto; lia.
      * rewrite andb_false_r.
        destruct (Z.gtb_spec
                    (1 + Z.max (getHeight (bst_insert l e)) (getHeight r)) h);
          simpl; split_all; auto; try lia; try discriminate;
          do 3 f_equal; lia.
    + destruct (IHr Hr) as (ex & -> & Hc' & Hr' & Hsame). simpl bind.
      exists ex. unfold addR_unwind.
      destruct ex; simpl negb; cbv iota zeta.
      * rewrite (Hsame eq_refl). rewrite <- Hh.
        simpl. split_all; auto; lia.
      * rewrite andb_false_r.
        destruct (Z.gtb_spec
                    (1 + Z.max (getHeight l) (getHeight (bst_insert r e))) h);
          simpl; split_all; auto; try lia; try discriminate;
          do 3 f_equal; lia.
Qed.

Lemma add_all_false_bst_insert (xs : list Z) :
  forall s,
    _shouldBalance s = false -> heights_cached (_root s) ->
    exists s',
      add_all s xs = Some s' /\ _shouldBalance s' = false /\
      _root s' = fold_left bst_insert xs (_root s).
Proof.
  induction xs as [|x xs IH]; intros s Hb Hc; simpl.
  - exists s. auto.
  - unfold add. rewrite Hb.
    destruct (addR_false_bst_insert (_root s) x Hc) as (ex & -> & Hc' & _).
    simpl bind.
    apply IH; simpl; auto.
Qed.

(** ** Traversals *)

Lemma preorderR_eq (l r : NodePtr) (v h : Z) :
  preorderR (node l r v h) =
  (ls <- match l with nullptr => Some [] | node _ _ _ _ => preorderR l end ;;
   rs <- match r with nullptr => Some [] | node _ _ _ _ => preorderR r end ;;
   Some (v :: ls ++ rs)).
Proof. reflexivity. Qed.

Lemma postorderR_eq (l r : NodePtr) (v h : Z) :
  postorderR (node l r v h) =
  (ls <- match l with nullptr => Some [] | node _ _ _ _ => postorderR l end ;;
   rs <- match r with nullptr => Some [] | node _ _ _ _ => postorderR r end ;;
   Some (ls ++ rs ++ [v])).
Proof. reflexivity. Qed.

(** Started at a node, the unguarded traversals never reach a null
    pointer: their recursive calls are guarded. *)
Lemma preorderR_node (t : NodePtr) :
  t <> nullptr -> exists vs, preorderR t = Some vs.
Proof.
  induction t as [|l IHl r IHr v h]; intros Hn; [contradiction|].
  assert (exists ls, match l with nullptr => Some [] | node _ _ _ _ => preorderR l end
                     = Some ls) as (ls & Hls)
    by (destruct l; [eauto | apply IHl; discriminate]).
  assert (exists rs, match r with nullptr => Some [] | node _ _ _ _ => preorderR r end
                     = Some rs) as (rs & Hrs)
    by (destruct r; [eauto | apply IHr; discriminate]).
  rewrite preorderR_eq, Hls, Hrs. simpl. eauto.
Qed.

Lemma postorderR_node (t : NodePtr) :
  t <> nullptr -> exists vs, postorderR t = Some vs.
Proof.
  induction t as [|l IHl r IHr v h]; intros Hn; [contradiction|].
  assert (exists ls, match l with nullptr => Some [] | node _ _ _ _ => postorderR l end
                     = Some ls) as (ls & Hls)
    by (destruct l; [eauto | apply IHl; discriminate]).
  assert (exists rs, match r with nullptr => Some [] | node _ _ _ _ => postorderR r end
                     = Some rs) as (rs & Hrs)
    by (destruct r; [eauto | apply IHr; discriminate]).
  rewrite postorderR_eq, Hls, Hrs. simpl. eauto.
Qed.

(** After at least one [add] the root is a node, so [preorder] and
    [postorder] are defined on every non-empty set. *)
Lemma traversals_defined_on_nonempty (sb : bool) (x : Z) (xs : list Z) :
  exists s vs ws,
    run sb (x :: xs) = Some s /\
    preorder s = Some vs /\ postorder s = Some ws.
Proof.
  destruct (run_correct sb (x :: xs)) as (s & Hrun & _ & [_ He _]).
  assert (_root s <> nullptr) as Hn.
  { intros Heq. rewrite Heq in He. apply (He x). simpl; auto. }
  destruct (preorderR_node _ Hn) as (vs & Hvs).
  destruct (postorderR_node _ Hn) as (ws & Hws).
  exists s, vs, ws. auto.
Qed.

(** ** The examples of the spec's testable properties *)

Example insert_1_2_3_balanced :
  run true [1; 2; 3] =
  Some (mkAVLSet (node (node nullptr nullptr 1 0) (node nullptr nullptr 3 0) 2 1)
                 3 true).
Proof. reflexivity. Qed.

Example insert_1_2_3_unbalanced :
  option_map height (run false [1; 2; 3]) = Some 2.
Proof. reflexivity. Qed.

Example traversals_5_3_8_1_4 :
  (s <- run true [5; 3; 8; 1; 4] ;; inorder s) = Some [1; 3; 4; 5; 8] /\
  (s <- run true [5; 3; 8; 1; 4] ;; preorder s) = Some [5; 3; 1; 4; 8] /\
  (s <- run true [5; 3; 8; 1; 4] ;; postorder s) = Some [1; 4; 3; 8; 5].
Proof. repeat split. Qed.

Example double_rotations :
  option_map _root (run true [3; 1; 2]) =
    Some (node (node nullptr nullptr 1 0) (node nullptr nullptr 3 0) 2 1) /\
  option_map _root (run true [1; 3; 2]) =
    Some (node (node nullptr nullptr 1 0) (node nullptr nullptr 3 0) 2 1).
Proof. split; reflexivity. Qed.

(** * The claims *)

(** C1.  Traversing the empty tree.  The empty state is the one reached by
    no [add] call.  On it [inorder] calls the visitor zero times, but
    [preorder] and [postorder] hand the null root to [preorderR] and
    [postorderR], which read [t->value] and [t->left] without the null test
    that [inorderR] has: they fault instead of visiting nothing. *)
Theorem traversals_on_empty (sb : bool) :
  run sb [] = Some (AVLSet_new sb) /\
  inorder (AVLSet_new sb) = Some [] /\
  preorder (AVLSet_new sb) = None /\
  postorder (AVLSet_new sb) = None.
Proof. repeat split. Qed.

(** C2, as stated, fails for move assignment: assigning the populated set
    {2, 3} into the populated set {1} leaves the source with the
    destination's old contents, so it reports size 1 and height 0, not
    size 0 and height -1. *)
Lemma move_assign_source_keeps_old_destination :
  run true [1] = Some one_element_set /\
  run true [2; 3] = Some two_element_set /\
  size (snd (move_assign one_element_set two_element_set)) = 1 /\
  height (snd (move_assign one_element_set two_element_set)) = 0 /\
  ~ (size (snd (move_assign one_element_set two_element_set)) = 0 /\
     height (snd (move_assign one_element_set two_element_set)) = -1).
Proof.
  repeat split. intros [H _]. discriminate H.
Qed.

(** C2, amended.  Both moves hand the source's state to the destination.
    After move construction the source reports size 0 and height -1.
    After move assignment the two sets have exchanged their states: the
    source reports the size and height the destination had before. *)
Theorem move_source_state (dst src : AVLSet) :
  (fst (move_construct src) = src /\
   size (snd (move_construct src)) = 0 /\
   height (snd (move_construct src)) = -1) /\
  (fst (move_assign dst src) = src /\
   snd (move_assign dst src) = dst /\
   size (snd (move_assign dst src)) = size dst /\
   height (snd (move_assign dst src)) = height dst).
Proof.
  destruct dst, src. repeat split.
Qed.

(** C3.  Balance invariant: with balancing enabled, after any sequence of
    [add] calls (hence after every call of the sequence) no call has
    faulted and every node's two subtrees differ in height by at most 1,
    both on heights recomputed from the shape and on the cached fields. *)
Theorem balance_invariant (xs : list Z) :
  exists s,
    run true xs = Some s /\
    balanced (_root s) /\ balanced_cached (_root s).
Proof.
  destruct (run_correct true xs) as (s & Hrun & Hb & [Ht _ _]).
  exists s. rewrite Hb in Ht. destruct Ht as (_ & Hc & Hbal).
  split_all; auto using balanced_cached_balanced.
Qed.

(** C4.  Ordering invariant: with or without balancing, after any sequence
    of [add] calls the inorder traversal visits a strictly increasing
    sequence, free of repetitions, whose elements are exactly the elements
    that were added. *)
Theorem inorder_sorted_distinct (sb : bool) (xs : list Z) :
  exists s vs,
    run sb xs = Some s /\ inorder s = Some vs /\
    StronglySorted Z.lt vs /\ NoDup vs /\
    forall x, In x vs <-> In x xs.
Proof.
  destruct (run_correct sb xs) as (s & Hrun & _ & [(Hs & _) He _]).
  exists s, (inorderR (_root s)).
  split_all; auto using sorted_NoDup.
Qed.

(** C5.  Height correctness: in every tree built by [add] calls, each
    node's cached height is 1 + the larger height of its two subtrees,
    an absent subtree counting -1; and [height()] returns the root's
    cached field, or -1 for the empty set, which is the tree's height. *)
Theorem cached_heights_correct (sb : bool) (xs : list Z) :
  exists s,
    run sb xs = Some s /\
    heights_correct (_root s) /\
    height s = match _root s with nullptr => -1 | node _ _ _ h => h end /\
    height s = tree_height (_root s).
Proof.
  destruct (run_correct sb xs) as (s & Hrun & _ & [(_ & Hc & _) _ _]).
  exists s. unfold height.
  split_all; auto using heights_cached_correct, heights_cached_tree_height.
Qed.

(** C6.  Size correctness: after any sequence of [add] calls [size()] is
    the number of distinct elements passed so far, and adding any of them
    again leaves [size()] as it was. *)
Theorem size_counts_distinct (sb : bool) (xs : list Z) :
  exists s,
    run sb xs = Some s /\
    size s = Z.of_nat (length (nodup Z.eq_dec xs)) /\
    forall x, In x xs -> exists s', add s x = Some s' /\ size s' = size s.
Proof.
  destruct (run_correct sb xs) as (s & Hrun & _ & Hs).
  exists s. pose proof Hs as [(Hsorted & _) He Hz].
  split_all; auto.
  - unfold size. rewrite Hz. f_equal.
    apply Permutation_length, NoDup_Permutation.
    + apply sorted_NoDup, Hsorted.
    + apply NoDup_nodup.
    + intros x. rewrite nodup_In. apply He.
  - intros x Hx. exists s. split; [|reflexivity].
    apply (add_present s xs); auto. apply He, Hx.
Qed.

(** C7.  [add] is idempotent: in every state reached by [add] calls,
    adding an element the set contains returns the very same state (shape,
    values, cached heights, size), and for any element a second [add] of
    it changes nothing after the first. *)
Theorem add_idempotent (sb : bool) (xs : list Z) :
  exists s,
    run sb xs = Some s /\
    (forall x, contains s x = true -> add s x = Some s) /\
    (forall x, exists s', add s x = Some s' /\ add s' x = Some s').
Proof.
  destruct (run_correct sb xs) as (s & Hrun & _ & Hs).
  exists s. split_all; auto.
  - intros x Hx. apply (add_present s xs); auto.
    apply contains_from_correct; auto. apply Hs.
  - intros x. destruct (add_correct s xs x Hs) as (s' & Hadd & _ & Hs').
    exists s'. split; auto.
    apply (add_present s' (xs ++ [x])); auto.
    apply Hs', in_or_app. simpl; auto.
Qed.

(** C8.  Membership: after any sequence of [add] calls [contains(x)] is
    true exactly when [x] was added.  The lookup starts at the root,
    answers false at an absent child and true on equality, and continues
    in the left child when [x] is smaller and in the right child when [x]
    is greater than the visited value. *)
Theorem contains_iff_added (sb : bool) (xs : list Z) :
  exists s,
    run sb xs = Some s /\
    (forall x, contains s x = true <-> In x xs) /\
    (forall x, contains s x = contains_from (_root s) x) /\
    (forall x, contains_from nullptr x = false) /\
    (forall l r v h x,
        (x = v -> contains_from (node l r v h) x = true) /\
        (x < v -> contains_from (node l r v h) x = contains_from l x) /\
        (v < x -> contains_from (node l r v h) x = contains_from r x)).
Proof.
  destruct (run_correct sb xs) as (s & Hrun & _ & [(Hs & _) He _]).
  exists s. split_all; auto.
  - intros x. unfold contains. rewrite contains_from_correct; auto.
  - intros l r v h x. simpl. split_all.
    + intros ->. rewrite Z.eqb_refl. reflexivity.
    + intros Hlt.
      destruct (Z.eqb_spec v x); [lia|].
      destruct (Z.gtb_spec x v); [lia | reflexivity].
    + intros Hlt.
      destruct (Z.eqb_spec v x); [lia|].
      destruct (Z.gtb_spec x v); [reflexivity | lia].
Qed.

(** C9.  Degenerate without balancing: adding n elements in strictly
    ascending order to a set built with balancing disabled gives height
    n - 1; the tree is the right-leaning chain of the elements, so no
    rotation took place. *)
Theorem ascending_unbalanced_height (xs : list Z) :
  StronglySorted Z.lt xs ->
  exists s,
    run false xs = Some s /\
    height s = Z.of_nat (length xs) - 1 /\
    _root s = chain xs.
Proof.
  intros Hs. eexists. split.
  - apply (add_all_chain xs []). exact Hs.
  - simpl. split; [apply getHeight_chain | reflexivity].
Qed.

Lemma ascending_unbalanced_height_witness :
  StronglySorted Z.lt [1; 2; 3] /\
  exists s,
    run false [1; 2; 3] = Some s /\
    height s = Z.of_nat (length [1; 2; 3]) - 1 /\
    _root s = chain [1; 2; 3].
Proof.
  assert (StronglySorted Z.lt [1; 2; 3]) as Hs
    by (repeat constructor; reflexivity).
  split; [exact Hs | exact (ascending_unbalanced_height [1; 2; 3] Hs)].
Defined.

(** C10.  The moved-from source of a move construction.  Whatever the
    source held and whatever its flag was, the new set takes its state and
    the source becomes the empty set with balancing off: [size], [height],
    [contains] and [inorder] answer as on an empty set, and later [add]
    calls never fault and build the tree of plain, rotation-free
    search-tree insertion.  Not every later operation is defined, though:
    [preorder] and [postorder] on the emptied source dereference its null
    root. *)
Theorem moved_from_source (src : AVLSet) :
  fst (move_construct src) = src /\
  snd (move_construct src) = AVLSet_new false /\
  size (snd (move_construct src)) = 0 /\
  height (snd (move_construct src)) = -1 /\
  (forall x, contains (snd (move_construct src)) x = false) /\
  inorder (snd (move_construct src)) = Some [] /\
  (forall xs, exists s,
      add_all (snd (move_construct src)) xs = Some s /\
      _shouldBalance s = false /\
      _root s = fold_left bst_insert xs nullptr) /\
  preorder (snd (move_construct src)) = None /\
  postorder (snd (move_construct src)) = None.
Proof.
  destruct src as [t z b]. split_all; try reflexivity.
  intros xs.
  apply (add_all_false_bst_insert xs (AVLSet_new false)); simpl; auto.
Qed.

(** * Further properties of the code *)

(** ** Rotations *)

Lemma rotLL_inorder (t t' : NodePtr) :
  rotLL t = Some t' -> inorderR t' = inorderR t.
Proof.
  destruct t as [|[|al t2 av ah] tr tv th]; try discriminate.
  intros [= <-]. list_assoc.
Qed.

Lemma rotRR_inorder (t t' : NodePtr) :
  rotRR t = Some t' -> inorderR t' = inorderR t.
Proof.
  destruct t as [|tl [|t2 br bv bh] tv th]; try discriminate.
  intros [= <-]. list_assoc.
Qed.

Lemma rotLR_inorder (t t' : NodePtr) :
  rotLR t = Some t' -> inorderR t' = inorderR t.
Proof.
  destruct t as [|[|al [|t2 t3 bv bh] av ah] tr tv th]; try discriminate.
  intros [= <-]. list_assoc.
Qed.

Lemma rotRL_inorder (t t' : NodePtr) :
  rotRL t = Some t' -> inorderR t' = inorderR t.
Proof.
  destruct t as [|tl [|[|t2 t3 bv bh] cr cv ch] tv th]; try discriminate.
  intros [= <-]. list_assoc.
Qed.

(** X1.  A rotation that does not fault relinks nodes without changing
    the inorder sequence: the same values in the same order, so search
    order and the stored elements are untouched. *)
Theorem rotate_preserves_inorder (t t' : NodePtr) (r : Rotation) :
  rotate t r = Some t' -> inorderR t' = inorderR t.
Proof.
  destruct r; simpl;
    auto using rotLL_inorder, rotLR_inorder, rotRL_inorder, rotRR_inorder.
Qed.

Lemma rotate_preserves_inorder_witness :
  rotate left_heavy_tree LL =
    Some (node (node nullptr nullptr 1 0) (node nullptr nullptr 3 0) 2 1) /\
  inorderR (node (node nullptr nullptr 1 0) (node nullptr nullptr 3 0) 2 1) =
    inorderR left_heavy_tree.
Proof.
  split; [reflexivity|].
  apply (rotate_preserves_inorder left_heavy_tree _ LL). reflexivity.
Defined.

(** X2.  A rotation of a tree whose cached heights are right returns a
    tree whose cached heights are right: it recomputes the height of
    every node it relinks, children before parents. *)
Theorem rotate_keeps_heights_cached (t t' : NodePtr) (r : Rotation) :
  heights_cached t -> rotate t r = Some t' -> heights_cached t'.
Proof.
  destruct r; simpl.
  - destruct t as [|[|al t2 av ah] tr tv th]; try discriminate.
    intros Hc [= <-]. simpl in *. intuition.
  - destruct t as [|[|al [|t2 t3 bv bh] av ah] tr tv th]; try discriminate.
    intros Hc [= <-]. simpl in *. intuition.
  - destruct t as [|tl [|[|t2 t3 bv bh] cr cv ch] tv th]; try discriminate.
    intros Hc [= <-]. simpl in *. intuition.
  - destruct t as [|tl [|t2 br bv bh] tv th]; try discriminate.
    intros Hc [= <-]. simpl in *. intuition.
Qed.

Lemma left_heavy_tree_heights : heights_cached left_heavy_tree.
Proof. simpl. repeat split. Qed.

Lemma rotate_keeps_heights_cached_witness :
  heights_cached left_heavy_tree /\
  heights_cached (node (node nullptr nullptr 1 0) (node nullptr nullptr 3 0) 2 1).
Proof.
  split; [exact left_heavy_tree_heights|].
  apply (rotate_keeps_heights_cached left_heavy_tree _ LL);
    [exact left_heavy_tree_heights | reflexivity].
Defined.

(** X3.  The two single rotations undo each other: on a tree with right
    cached heights, [rotRR] after [rotLL] and [rotLL] after [rotRR] give
    back the tree they started from, heights included. *)
Theorem single_rotations_inverse (t t' : NodePtr) :
  heights_cached t ->
  (rotLL t = Some t' -> rotRR t' = Some t) /\
  (rotRR t = Some t' -> rotLL t' = Some t).
Proof.
  intros Hc. split.
  - destruct t as [|[|al t2 av ah] tr tv th]; try discriminate.
    intros [= <-]. simpl in *.
    destruct Hc as ((_ & _ & ->) & _ & ->). reflexivity.
  - destruct t as [|tl [|t2 br bv bh] tv th]; try discriminate.
    intros [= <-]. simpl in *.
    destruct Hc as (_ & (_ & _ & ->) & ->). reflexivity.
Qed.

Lemma single_rotations_inverse_witness :
  heights_cached left_heavy_tree /\
  rotRR (node (node nullptr nullptr 1 0) (node nullptr nullptr 3 0) 2 1) =
    Some left_heavy_tree.
Proof.
  split; [exact left_heavy_tree_heights|].
  apply (single_rotations_inverse left_heavy_tree _ left_heavy_tree_heights).
  reflexivity.
Defined.

(** X4.  Each double rotation is two single rotations: [rotLR] at a node
    is [rotRR] at its left child followed by [rotLL] at the node, and
    [rotRL] is [rotLL] at its right child followed by [rotRR] at the node;
    either side faults exactly when the other does. *)
Theorem double_rotation_decomposes (l r : NodePtr) (v h : Z) :
  rotLR (node l r v h) = (l' <- rotRR l ;; rotLL (node l' r v h)) /\
  rotRL (node l r v h) = (r' <- rotLL r ;; rotRR (node l r' v h)).
Proof.
  split.
  - destruct l as [|al [|t2 t3 bv bh] av ah]; reflexivity.
  - destruct r as [|[|t2 t3 bv bh] cr cv ch]; reflexivity.
Qed.

(** ** Preorder and postorder on non-empty trees *)

Lemma preorderR_list (t : NodePtr) :
  t <> nullptr -> preorderR t = Some (preorder_list t).
Proof.
  induction t as [|l IHl r IHr v h]; intros Hn; [contradiction|].
  assert (match l with nullptr => Some [] | node _ _ _ _ => preorderR l end
          = Some (preorder_list l)) as Hl
    by (destruct l; [reflexivity | apply IHl; discriminate]).
  assert (match r with nullptr => Some [] | node _ _ _ _ => preorderR r end
          = Some (preorder_list r)) as Hr
    by (destruct r; [reflexivity | apply IHr; discriminate]).
  rewrite preorderR_eq, Hl, Hr. reflexivity.
Qed.

Lemma postorderR_list (t : NodePtr) :
  t <> nullptr -> postorderR t = Some (postorder_list t).
Proof.
  induction t as [|l IHl r IHr v h]; intros Hn; [contradiction|].
  assert (match l with nullptr => Some [] | node _ _ _ _ => postorderR l end
          = Some (postorder_list l)) as Hl
    by (destruct l; [reflexivity | apply IHl; discriminate]).
  assert (match r with nullptr => Some [] | node _ _ _ _ => postorderR r end
          = Some (postorder_list r)) as Hr
    by (destruct r; [reflexivity | apply IHr; discriminate]).
  rewrite postorderR_eq, Hl, Hr. reflexivity.
Qed.

Lemma preorder_list_perm (t : NodePtr) :
  Permutation (preorder_list t) (inorderR t).
Proof.
  induction t as [|l IHl r IHr v h]; simpl; auto.
  apply Permutation_cons_app, Permutation_app; auto.
Qed.

Lemma postorder_list_perm (t : NodePtr) :
  Permutation (postorder_list t) (inorderR t).
Proof.
  induction t as [|l IHl r IHr v h]; simpl; auto.
  rewrite app_assoc.
  apply Permutation_trans with (v :: postorder_list l ++ postorder_list r).
  - apply Permutation_sym, Permutation_cons_append.
  - apply Permutation_cons_app, Permutation_app; auto.
Qed.

Lemma run_nonempty_root (sb : bool) (x : Z) (xs : list Z) (s : AVLSet) :
  set_inv s (x :: xs) -> exists l r v h, _root s = node l r v h.
Proof.
  intros [_ He _]. destruct (_root s) as [|l r v h]; eauto.
  exfalso. apply (He x). simpl; auto.
Qed.

(** X5.  After at least one [add], [preorder] does not fault and visits
    every stored element exactly once: its sequence starts with the root's
    value, has no repetition, and is a rearrangement of the inorder
    sequence, so it holds exactly the elements added. *)
Theorem preorder_visits_each_once (sb : bool) (x : Z) (xs : list Z) :
  exists s vs l r v h,
    run sb (x :: xs) = Some s /\ preorder s = Some vs /\
    _root s = node l r v h /\ hd_error vs = Some v /\
    Permutation vs (inorderR (_root s)) /\ NoDup vs /\
    forall y, In y vs <-> In y (x :: xs).
Proof.
  destruct (run_correct sb (x :: xs)) as (s & Hrun & _ & Hs).
  destruct (run_nonempty_root sb x xs s Hs) as (l & r & v & h & Hroot).
  pose proof Hs as [(Hsorted & _) He _].
  pose proof (preorder_list_perm (_root s)) as Hp.
  exists s, (preorder_list (_root s)), l, r, v, h.
  split_all; auto.
  - apply preorderR_list. rewrite Hroot. discriminate.
  - rewrite Hroot. reflexivity.
  - apply (Permutation_NoDup (Permutation_sym Hp)), sorted_NoDup, Hsorted.
  - intros y. rewrite <- He. split; apply Permutation_in; auto.
    apply Permutation_sym, Hp.
Qed.

(** X6.  After at least one [add], [postorder] does not fault and visits
    every stored element exactly once: its sequence ends with the root's
    value, has no repetition, and is a rearrangement of the inorder
    sequence. *)
Theorem postorder_visits_each_once (sb : bool) (x : Z) (xs : list Z) :
  exists s ws l r v h,
    run sb (x :: xs) = Some s /\ postorder s = Some ws /\
    _root s = node l r v h /\ last ws x = v /\ ws <> [] /\
    Permutation ws (inorderR (_root s)) /\ NoDup ws /\
    forall y, In y ws <-> In y (x :: xs).
Proof.
  destruct (run_correct sb (x :: xs)) as (s & Hrun & _ & Hs).
  destruct (run_nonempty_root sb x xs s Hs) as (l & r & v & h & Hroot).
  pose proof Hs as [(Hsorted & _) He _].
  pose proof (postorder_list_perm (_root s)) as Hp.
  exists s, (postorder_list (_root s)), l, r, v, h.
  split_all; auto.
  - apply postorderR_list. rewrite Hroot. discriminate.
  - rewrite Hroot. simpl. rewrite app_assoc. apply last_last.
  - rewrite Hroot. simpl. rewrite app_assoc.
    intros H. apply app_eq_nil in H. destruct H as [_ H]. discriminate.
  - apply (Permutation_NoDup (Permutation_sym Hp)), sorted_NoDup, Hsorted.
  - intros y. rewrite <- He. split; apply Permutation_in; auto.
    apply Permutation_sym, Hp.
Qed.

(** ** Destruction and copy *)

Lemma deleteTree_postorder (t : NodePtr) : deleteTree t = postorder_list t.
Proof.
  induction t as [|l IHl r IHr v h]; simpl; auto.
  rewrite <- IHl, <- IHr. destruct l, r; reflexivity.
Qed.

(** X7.  The destructor deletes one node per stored element and no node
    twice: after any sequence of [add] calls the deleted nodes are a
    rearrangement of the inorder sequence, their number is [size()], and
    they are deleted in postorder, children before their parent. *)
Theorem destructor_deletes_each_node_once (sb : bool) (xs : list Z) :
  exists s,
    run sb xs = Some s /\
    Permutation (AVLSet_destroy s) (inorderR (_root s)) /\
    NoDup (AVLSet_destroy s) /\
    Z.of_nat (length (AVLSet_destroy s)) = size s /\
    AVLSet_destroy s = postorder_list (_root s) /\
    (_root s <> nullptr -> postorder s = Some (AVLSet_destroy s)).
Proof.
  destruct (run_correct sb xs) as (s & Hrun & _ & [(Hsorted & _) He Hz]).
  pose proof (postorder_list_perm (_root s)) as Hp.
  exists s. unfold AVLSet_destroy, size. rewrite deleteTree_postorder.
  split_all; auto.
  - apply (Permutation_NoDup (Permutation_sym Hp)), sorted_NoDup, Hsorted.
  - rewrite Hz. f_equal. apply Permutation_length, Hp.
  - apply postorderR_list.
Qed.

Lemma copyTree_id (t : NodePtr) : copyTree t = t.
Proof.
  induction t as [|l IHl r IHr v h]; simpl; congruence.
Qed.

(** X8.  Copies are exact: the copy constructor and copy assignment (of
    two distinct objects) leave the destination with the source's shape,
    values, cached heights, size and balancing flag, whatever the
    destination held before; copy assignment first deletes every node the
    destination held, in postorder. *)
Theorem copy_reproduces_source (this s : AVLSet) :
  copy_construct s = s /\
  snd (copy_assign this s) = s /\
  fst (copy_assign this s) = postorder_list (_root this).
Proof.
  unfold copy_construct, copy_assign. simpl.
  rewrite copyTree_id, deleteTree_postorder. destruct s; auto.
Qed.

(** ** Insertion seen through the queries *)

Lemma bool_eq_iff (a b : bool) : (a = true <-> b = true) -> a = b.
Proof. destruct a, b; intuition congruence. Qed.

Lemma contains_set_inv (s : AVLSet) (xs : list Z) (x : Z) :
  set_inv s xs -> (contains s x = true <-> In x xs).
Proof.
  intros [(Hs & _) He _]. unfold contains.
  rewrite contains_from_correct; auto.
Qed.

(** X9.  Insert then look up: in every state reached by [add] calls,
    [add(x)] makes [contains(x)] true and leaves the answer of
    [contains(y)] as it was for every other [y]. *)
Theorem contains_after_add (sb : bool) (xs : list Z) (x : Z) :
  exists s s',
    run sb xs = Some s /\ add s x = Some s' /\
    contains s' x = true /\
    forall y, y <> x -> contains s' y = contains s y.
Proof.
  destruct (run_correct sb xs) as (s & Hrun & _ & Hs).
  destruct (add_correct s xs x Hs) as (s' & Hadd & _ & Hs').
  exists s, s'. split_all; auto.
  - apply (contains_set_inv s' _ x Hs'), in_or_app. simpl; auto.
  - intros y Hy. apply bool_eq_iff.
    rewrite (contains_set_inv s' _ y Hs'), (contains_set_inv s _ y Hs).
    rewrite in_app_iff. simpl. intuition congruence.
Qed.

(** X10.  What [add] changes: in every state reached by [add] calls, a
    further [add] never faults, keeps the balancing flag, raises [size()]
    by one exactly when the element is new, and leaves [height()] as it
    was or raises it by one. *)
Theorem add_grows_by_at_most_one (sb : bool) (xs : list Z) (x : Z) :
  exists s s',
    run sb xs = Some s /\ add s x = Some s' /\
    _shouldBalance s' = sb /\
    (In x xs -> size s' = size s) /\
    (~ In x xs -> size s' = size s + 1) /\
    height s <= height s' <= height s + 1.
Proof.
  destruct (run_correct sb xs) as (s & Hrun & Hb & Hs).
  pose proof Hs as [Ht He Hz].
  exists s. unfold add, size, height.
  destruct (addR_correct _ _ x Ht) as [(Hin & ->)|(t' & -> & Hins)]; simpl bind.
  - eexists. split_all; eauto; simpl; try lia.
    intros Hn. exfalso. apply Hn, He, Hin.
  - eexists. split_all; eauto; simpl; try lia.
    + intros Hin. exfalso. apply (ins_fresh _ _ _ _ Hins), He, Hin.
    + apply (ins_height _ _ _ _ Hins).
    + apply (ins_height _ _ _ _ Hins).
Qed.

(** ** Bounds on size and height *)

Lemma height_below_count (t : NodePtr) :
  heights_cached t -> getHeight t + 1 <= Z.of_nat (length (inorderR t)).
Proof.
  induction t as [|l IHl r IHr v h]; simpl; [lia|].
  intros (Hl & Hr & ->). specialize (IHl Hl). specialize (IHr Hr).
  rewrite length_app. simpl. lia.
Qed.

(** X11.  After any sequence of [add] calls, [size()] is at least 0 and at
    most the number of calls, [height()] lies between -1 and [size() - 1],
    and the set reports size 0, or height -1, exactly when no call was
    made. *)
Theorem size_and_height_bounds (sb : bool) (xs : list Z) :
  exists s,
    run sb xs = Some s /\
    0 <= size s <= Z.of_nat (length xs) /\
    -1 <= height s <= size s - 1 /\
    (size s = 0 <-> xs = []) /\
    (height s = -1 <-> xs = []).
Proof.
  destruct (run_correct sb xs) as (s & Hrun & _ & Hs).
  pose proof Hs as [(Hsorted & Hc & _) He Hz].
  pose proof (heights_cached_lower _ Hc) as Hlow.
  pose proof (height_below_count _ Hc) as Hup.
  assert (length (inorderR (_root s)) <= length xs)%nat as Hlen.
  { apply NoDup_incl_length; [apply sorted_NoDup, Hsorted|].
    intros y Hy. apply He, Hy. }
  exists s. unfold size, height. split_all; auto; try lia.
  - split.
    + intros H0. destruct xs as [|x xs]; auto.
      destruct (run_nonempty_root sb x xs s Hs) as (l & r & v & h & Hroot).
      rewrite Hroot in Hz. simpl in Hz. rewrite length_app in Hz.
      simpl in Hz. lia.
    + intros ->. destruct (_root s) as [|l r v h]; [simpl in Hz; lia|].
      exfalso. apply (He v), root_in_inorderR.
  - split.
    + intros H1. destruct xs as [|x xs]; auto.
      destruct (run_nonempty_root sb x xs s Hs) as (l & r & v & h & Hroot).
      rewrite Hroot in *. simpl in *. destruct Hc as (Hl & Hr & ->).
      pose proof (heights_cached_lower _ Hl). lia.
    + intros ->. destruct (_root s) as [|l r v h]; [reflexivity|].
      exfalso. apply (He v), root_in_inorderR.
Qed.

(** ** The contents do not depend on insertion order or on balancing *)

Lemma sorted_unique (l1 : list Z) :
  forall l2,
    StronglySorted Z.lt l1 -> StronglySorted Z.lt l2 ->
    (forall x, In x l1 <-> In x l2) -> l1 = l2.
Proof.
  induction l1 as [|a l1 IH]; intros [|b l2] S1 S2 H.
  - reflexivity.
  - exfalso. apply (H b). simpl; auto.
  - exfalso. apply (H a). simpl; auto.
  - inversion S1 as [|? ? S1' F1]; inversion S2 as [|? ? S2' F2]; subst.
    rewrite Forall_forall in F1, F2.
    assert (a = b) as ->.
    { destruct (proj1 (H a) (or_introl eq_refl)) as [->|Ha]; auto.
      destruct (proj2 (H b) (or_introl eq_refl)) as [->|Hb]; auto.
      specialize (F1 _ Hb). specialize (F2 _ Ha). lia. }
    f_equal. apply IH; auto.
    intros x; split; intros Hx.
    + destruct (proj1 (H x) (or_intror Hx)) as [<-|]; auto.
      specialize (F1 _ Hx). lia.
    + destruct (proj2 (H x) (or_intror Hx)) as [<-|]; auto.
      specialize (F2 _ Hx). lia.
Qed.

(** X12.  Two sequences of [add] calls that pass the same elements, in any
    order, with any repetitions, and with balancing on or off, give sets
    that answer alike: the same inorder sequence, the same [size()] and
    the same [contains] for every element. *)
Theorem contents_independent_of_order (sb sb' : bool) (xs ys : list Z) :
  (forall x, In x xs <-> In x ys) ->
  exists s s',
    run sb xs = Some s /\ run sb' ys = Some s' /\
    inorder s = inorder s' /\ size s = size s' /\
    forall x, contains s x = contains s' x.
Proof.
  intros Hsame.
  destruct (run_correct sb xs) as (s & Hrun & _ & Hs).
  destruct (run_correct sb' ys) as (s' & Hrun' & _ & Hs').
  assert (inorderR (_root s) = inorderR (_root s')) as Heq.
  { destruct Hs as [(S1 & _) E1 _], Hs' as [(S2 & _) E2 _].
    apply sorted_unique; auto.
    intros x. rewrite E1, E2. apply Hsame. }
  exists s, s'. split_all; auto.
  - unfold inorder. rewrite Heq. reflexivity.
  - unfold size. rewrite (si_size _ _ Hs), (si_size _ _ Hs'), Heq. reflexivity.
  - intros x. apply bool_eq_iff.
    rewrite (contains_set_inv s xs x Hs), (contains_set_inv s' ys x Hs').
    apply Hsame.
Qed.

Lemma contents_independent_of_order_witness :
  (forall x, In x [1; 2; 3] <-> In x [3; 1; 2; 1]) /\
  exists s s',
    run true [1; 2; 3] = Some s /\ run false [3; 1; 2; 1] = Some s' /\
    inorder s = inorder s' /\ size s = size s' /\
    forall x, contains s x = contains s' x.
Proof.
  assert (forall x, In x [1; 2; 3] <-> In x [3; 1; 2; 1]) as H
    by (intros x; simpl; intuition).
  split; [exact H | exact (contents_independent_of_order true false _ _ H)].
Defined.

(** ** Balanced trees are shallow *)

Lemma pow_sum_square (p a b : Z) :
  0 <= p -> 1 <= a -> 1 <= b -> p <= a * a -> p <= 2 * (b * b) ->
  2 * p <= (a + b) * (a + b).
Proof.
  intros Hp Ha Hb H1 H2.
  assert (p <= 2 * (a * b)) as H3.
  { destruct (Z_le_gt_dec p (2 * (a * b))) as [|Hgt]; auto. exfalso.
    assert (p * p <= (a * a) * (2 * (b * b))) as Hpp
      by (apply Z.mul_le_mono_nonneg; lia).
    assert ((2 * (a * b)) * (2 * (a * b)) < p * p) as Hlt
      by (apply Z.mul_lt_mono_nonneg; nia).
    assert (0 < a * b) by nia.
    nia. }
  nia.
Qed.

Lemma avl_count_bound (t : NodePtr) :
  heights_cached t -> balanced_cached t ->
  2 ^ (getHeight t + 1) <=
  (Z.of_nat (length (inorderR t)) + 1) * (Z.of_nat (length (inorderR t)) + 1).
Proof.
  induction t as [|l IHl r IHr v h]; simpl; [intros; reflexivity|].
  intros (Hl & Hr & ->) (Bl & Br & B).
  specialize (IHl Hl Bl). specialize (IHr Hr Br).
  pose proof (heights_cached_lower _ Hl) as Ll.
  pose proof (heights_cached_lower _ Hr) as Lr.
  rewrite length_app. simpl length.
  set (a := Z.of_nat (length (inorderR l)) + 1) in *.
  set (b := Z.of_nat (length (inorderR r)) + 1) in *.
  replace (Z.of_nat (length (inorderR l) + S (length (inorderR r))) + 1)
    with (a + b) by (subst a b; lia).
  assert (1 <= a) by (subst a; lia). assert (1 <= b) by (subst b; lia).
  destruct (Z_le_gt_dec (getHeight r) (getHeight l)) as [Hle|Hgt].
  - replace (1 + Z.max (getHeight l) (getHeight r) + 1)
      with (Z.succ (getHeight l + 1)) by lia.
    rewrite Z.pow_succ_r by lia.
    apply pow_sum_square; auto; [apply Z.pow_nonneg; lia|].
    apply Z.le_trans with (2 * 2 ^ (getHeight r + 1)); [|lia].
    rewrite <- Z.pow_succ_r by lia.
    apply Z.pow_le_mono_r; lia.
  - replace (1 + Z.max (getHeight l) (getHeight r) + 1)
      with (Z.succ (getHeight r + 1)) by lia.
    rewrite Z.pow_succ_r by lia.
    replace (a + b) with (b + a) by lia.
    apply pow_sum_square; auto; [apply Z.pow_nonneg; lia|].
    apply Z.le_trans with (2 * 2 ^ (getHeight l + 1)); [|lia].
    rewrite <- Z.pow_succ_r by lia.
    apply Z.pow_le_mono_r; lia.
Qed.

(** X13.  With balancing enabled the tree stays shallow: after any
    sequence of [add] calls, 2^(height+1) <= (size+1)^2, hence
    [height() <= 2 * log2 (size() + 1)]; the paths that [add] and
    [contains] walk are logarithmic in the number of elements. *)
Theorem balanced_height_logarithmic (xs : list Z) :
  exists s,
    run true xs = Some s /\
    2 ^ (height s + 1) <= (size s + 1) * (size s + 1) /\
    height s <= 2 * Z.log2 (size s + 1).
Proof.
  destruct (run_correct true xs) as (s & Hrun & Hb & [Ht He Hz]).
  rewrite Hb in Ht. destruct Ht as (_ & Hc & Hbal).
  pose proof (avl_count_bound _ Hc (Hbal eq_refl)) as Hbound.
  pose proof (heights_cached_lower _ Hc) as Hlow.
  exists s. unfold size, height. rewrite Hz. split_all; auto.
  set (n := Z.of_nat (length (inorderR (_root s))) + 1) in *.
  assert (1 <= n) by (subst n; lia).
  assert (getHeight (_root s) + 1 <= Z.log2 (n * n)) as Hlog.
  { rewrite <- (Z.log2_pow2 (getHeight (_root s) + 1)) by lia.
    apply Z.log2_le_mono, Hbound. }
  pose proof (Z.log2_mul_above n n) as Hmul.
  lia.
Qed.

(** ** Rebuilding a tree from its preorder sequence *)

Lemma fold_bst_insert_left (ys : list Z) :
  forall l r v h,
    (forall y, In y ys -> y < v) ->
    h = 1 + Z.max (getHeight l) (getHeight r) ->
    fold_left bst_insert ys (node l r v h) =
    node (fold_left bst_insert ys l) r v
         (1 + Z.max (getHeight (fold_left bst_insert ys l)) (getHeight r)).
Proof.
  induction ys as [|y ys IH]; intros l r v h Hlt Hh; simpl fold_left.
  - congruence.
  - pose proof (Hlt y (or_introl eq_refl)) as Hy.
    simpl bst_insert.
    destruct (Z.eqb_spec v y) as [?|_]; [lia|].
    destruct (Z.ltb_spec y v) as [_|?]; [|lia].
    apply IH; auto. intros z Hz. apply Hlt. simpl; auto.
Qed.

Lemma fold_bst_insert_right (ys : list Z) :
  forall l r v h,
    (forall y, In y ys -> v < y) ->
    h = 1 + Z.max (getHeight l) (getHeight r) ->
    fold_left bst_insert ys (node l r v h) =
    node l (fold_left bst_insert ys r) v
         (1 + Z.max (getHeight l) (getHeight (fold_left bst_insert ys r))).
Proof.
  induction ys as [|y ys IH]; intros l r v h Hlt Hh; simpl fold_left.
  - congruence.
  - pose proof (Hlt y (or_introl eq_refl)) as Hy.
    simpl bst_insert.
    destruct (Z.eqb_spec v y) as [?|_]; [lia|].
    destruct (Z.ltb_spec y v) as [?|_]; [lia|].
    apply IH; auto. intros z Hz. apply Hlt. simpl; auto.
Qed.

Lemma preorder_rebuilds (t : NodePtr) :
  bst t -> heights_cached t ->
  fold_left bst_insert (preorder_list t) nullptr = t.
Proof.
  unfold bst.
  induction t as [|l IHl r IHr v h]; intros Hs Hc; [reflexivity|].
  simpl in Hs, Hc. apply sorted_app in Hs.
  destruct Hs as (Sl & Sr & Ll & Lr). destruct Hc as (Hl & Hr & ->).
  simpl preorder_list. simpl fold_left. rewrite fold_left_app.
  rewrite fold_bst_insert_left; [|intros y Hy|reflexivity].
  - rewrite (IHl Sl Hl).
    rewrite fold_bst_insert_right; [|intros y Hy|reflexivity].
    + rewrite (IHr Sr Hr). reflexivity.
    + apply Lr, (Permutation_in _ (preorder_list_perm r)), Hy.
  - apply Ll, (Permutation_in _ (preorder_list_perm l)), Hy.
Qed.

(** X14.  A tree can be rebuilt from its preorder sequence: take any set
    reached by [add] calls, balanced or not; adding the elements that
    [preorder] visits, in that order, to a fresh set with balancing
    disabled gives a tree of the same shape, values and cached heights,
    and the same size. *)
Theorem preorder_reinsertion_rebuilds (sb : bool) (x : Z) (xs : list Z) :
  exists s vs s2,
    run sb (x :: xs) = Some s /\ preorder s = Some vs /\
    run false vs = Some s2 /\
    _root s2 = _root s /\ size s2 = size s.
Proof.
  destruct (run_correct sb (x :: xs)) as (s & Hrun & _ & Hs).
  destruct (run_nonempty_root sb x xs s Hs) as (l & r & v & h & Hroot).
  pose proof Hs as [(Hsorted & Hc & _) He Hz].
  set (vs := preorder_list (_root s)).
  destruct (run_correct false vs) as (s2 & Hrun2 & Hb2 & Hs2).
  destruct (add_all_false_bst_insert vs (AVLSet_new false) eq_refl I)
    as (s2' & Hrun2' & _ & Hroot2).
  unfold run in Hrun2. rewrite Hrun2 in Hrun2'. injection Hrun2' as <-.
  simpl in Hroot2. unfold vs in Hroot2.
  rewrite (preorder_rebuilds _ Hsorted Hc) in Hroot2.
  exists s, vs, s2. split_all; auto.
  - apply preorderR_list. rewrite Hroot. discriminate.
  - unfold size. rewrite (si_size _ _ Hs2), Hroot2, Hz. reflexivity.
Qed.

(** X15.  With balancing disabled [add] is plain search-tree insertion:
    after any sequence of [add] calls the tree is the one obtained by
    inserting the elements one after another at the leaf where the search
    for them ends, with every height on the path recomputed and no node
    relinked. *)
Theorem unbalanced_add_is_leaf_insertion (xs : list Z) :
  exists s,
    run false xs = Some s /\
    _root s = fold_left bst_insert xs nullptr.
Proof.
  destruct (add_all_false_bst_insert xs (AVLSet_new false) eq_refl I)
    as (s & Hrun & _ & Hroot).
  exists s. auto.
Qed.

(** ** No tree is shallower than its size allows *)

Lemma count_below_pow (t : NodePtr) :
  heights_cached t ->
  Z.of_nat (length (inorderR t)) + 1 <= 2 ^ (getHeight t + 1).
Proof.
  induction t as [|l IHl r IHr v h]; simpl; [intros; reflexivity|].
  intros (Hl & Hr & ->). specialize (IHl Hl). specialize (IHr Hr).
  pose proof (heights_cached_lower _ Hl) as Ll.
  pose proof (heights_cached_lower _ Hr) as Lr.
  rewrite length_app. simpl length.
  replace (1 + Z.max (getHeight l) (getHeight r) + 1)
    with (Z.succ (Z.max (getHeight l) (getHeight r) + 1)) by lia.
  rewrite Z.pow_succ_r by lia.
  assert (2 ^ (getHeight l + 1) <= 2 ^ (Z.max (getHeight l) (getHeight r) + 1))
    by (apply Z.pow_le_mono_r; lia).
  assert (2 ^ (getHeight r + 1) <= 2 ^ (Z.max (getHeight l) (getHeight r) + 1))
    by (apply Z.pow_le_mono_r; lia).
  lia.
Qed.

(** X16.  After any sequence of [add] calls, with balancing on or off, a
    set of height h holds at most 2^(h+1) - 1 elements; so
    [height() >= log2 (size() + 1) - 1]. *)
Theorem size_at_most_full_tree (sb : bool) (xs : list Z) :
  exists s,
    run sb xs = Some s /\
    size s + 1 <= 2 ^ (height s + 1) /\
    Z.log2 (size s + 1) - 1 <= height s.
Proof.
  destruct (run_correct sb xs) as (s & Hrun & _ & [(_ & Hc & _) _ Hz]).
  pose proof (count_below_pow _ Hc) as Hb.
  pose proof (heights_cached_lower _ Hc) as Hlow.
  exists s. unfold size, height. rewrite Hz. split_all; auto.
  set (n := Z.of_nat (length (inorderR (_root s))) + 1) in *.
  assert (Z.log2 n <= getHeight (_root s) + 1); [|lia].
  rewrite <- (Z.log2_pow2 (getHeight (_root s) + 1)) by lia.
  apply Z.log2_le_mono, Hb.
Qed.
